(** * opaque.h: owning pointer for opaque private implementations

    A shallow embedding of [include/opaque/opaque.h] (namespace [opaq]):
    the [IPrivate] marker interface with its debug verification code, the
    [PrivateAutoPtr] owning pointer and the [Private] back-reference base.

    Pointers are addresses ([N], [0] is the null pointer); the free store is
    a finite map from addresses to the [IPrivate] subobject found there; the
    observable effect of a virtual destructor is an entry in a destruction
    log.  Code that can trip an [assert] or touch storage that is not live
    runs in a small state-and-failure monad. *)

From Stdlib Require Import ZArith NArith List.
From stdpp Require Import base option gmap list.

Module opaq.

(** ** Build configuration

    [[
    #if !defined(NDEBUG) || defined(_DEBUG)
    #  define OPAQ_DEBUG
    #endif
    ]]
    [assert] comes from <cassert> and is compiled out exactly when [NDEBUG]
    is defined. *)

Record BuildConfig : Type := {
  NDEBUG : bool;   (* defined(NDEBUG) *)
  _DEBUG : bool    (* defined(_DEBUG) *)
}.

Definition OPAQ_DEBUG (cfg : BuildConfig) : bool :=
  negb (NDEBUG cfg) || _DEBUG cfg.

Definition assert_enabled (cfg : BuildConfig) : bool :=
  negb (NDEBUG cfg).

(** A checked build stores the verification code and verifies it; an
    unchecked build does neither. *)
Definition checked_build (cfg : BuildConfig) : bool :=
  OPAQ_DEBUG cfg && assert_enabled cfg.

Definition unchecked_build (cfg : BuildConfig) : bool :=
  negb (OPAQ_DEBUG cfg) && negb (assert_enabled cfg).

(** ** Machine integers and addresses *)

(** [unsigned int], taken to be 32 bits wide. *)
Definition uint_modulus : Z := 2 ^ 32.

Definition to_uint (z : Z) : Z := z mod uint_modulus.

Definition OPAQ_IPRIVATE_VERIFICATION : Z := 0xBEEFDEAD.

(** [T *]: an address, [0] being the null pointer. *)
Definition addr : Type := N.

Definition null : addr := 0%N.

(** [if(p)] / [!p] on a pointer. *)
Definition is_nonnull (p : addr) : bool := negb (p =? null)%N.

(** [reinterpret_cast<IPrivate *>(p)] keeps the address. *)
Definition reinterpret_cast (p : addr) : addr := p.

(** ** IPrivate

    [[
    struct IPrivate {
        virtual ~IPrivate() {}
    #ifdef OPAQ_DEBUG
        unsigned int _privateInstVerification;
        IPrivate() : _privateInstVerification(OPAQ_IPRIVATE_VERIFICATION) {}
        unsigned int privateInstVerification() const { return _privateInstVerification; }
    #endif
    };
    ]]
    The field exists only under [OPAQ_DEBUG]; [None] is an object without
    it.  An object that was not built by [IPrivate()] (a foreign object
    reached through the cast) shows whatever word lies at that offset. *)

Record IPrivate : Type := {
  _privateInstVerification : option Z
}.

Definition IPrivate_ctor (cfg : BuildConfig) : IPrivate :=
  {| _privateInstVerification :=
       if OPAQ_DEBUG cfg then Some (to_uint OPAQ_IPRIVATE_VERIFICATION)
       else None |}.

Definition privateInstVerification (o : IPrivate) : option Z :=
  _privateInstVerification o.

(** [ip->privateInstVerification() == OPAQ_IPRIVATE_VERIFICATION] *)
Definition verification_ok (o : IPrivate) : bool :=
  match privateInstVerification o with
  | Some v => (v =? OPAQ_IPRIVATE_VERIFICATION)%Z
  | None => false
  end.

(** ** Private<T>

    [[
    template <typename T>
    struct Private : public IPrivate {
        T &self;
        Private(T &i) : self(i) {}
    };
    ]]
    A second constructor takes a pointer to the public instance and binds
    [self] to its referent. *)

Record Private (T : Type) : Type := {
  Private_base : IPrivate;
  self : T
}.
Arguments Private_base {T} _.
Arguments self {T} _.

Definition Private_ctor {T : Type} (cfg : BuildConfig) (i : T) : Private T :=
  {| Private_base := IPrivate_ctor cfg; self := i |}.

(** ** The free store and the effect monad *)

Record World : Type := {
  heap : gmap N IPrivate;   (* live instances, by address *)
  destroyed : list addr     (* virtual destructor runs, latest first *)
}.

Definition empty_world : World := {| heap := ∅; destroyed := [] |}.

(** How often the instance at [x] has been destroyed so far. *)
Definition destructions (x : addr) (w : World) : nat :=
  count_occ N.eq_dec (destroyed w) x.

(** The value of a counter incremented by every destructor. *)
Definition destruction_counter (w : World) : nat := length (destroyed w).

Inductive outcome (A : Type) : Type :=
| Returns (a : A)
| AssertionFailed        (* assert() aborted the process *)
| Undefined.             (* storage that is not live was used *)
Arguments Returns {A} a.
Arguments AssertionFailed {A}.
Arguments Undefined {A}.

Definition M (A : Type) : Type := World -> outcome (A * World).

#[global] Instance M_ret : MRet M := fun A a w => Returns (a, w).

#[global] Instance M_bind : MBind M := fun A B k c w =>
  match c w with
  | Returns (a, w') => k a w'
  | AssertionFailed => AssertionFailed
  | Undefined => Undefined
  end.

(** The two ways a computation stops early. *)
Definition abort {A : Type} : M A := fun _ => AssertionFailed.
Definition undefined {A : Type} : M A := fun _ => Undefined.

(** Read the object a pointer refers to. *)
Definition load (ip : addr) : M IPrivate :=
  fun w =>
    match heap w !! ip with
    | Some o => Returns (o, w)
    | None => Undefined
    end.

(** [assert(e)]: under [NDEBUG] the expression is not evaluated. *)
Definition assert (cfg : BuildConfig) (e : M bool) : M unit :=
  if assert_enabled cfg then
    (b ← e;
     if b : bool then mret tt else abort) : M unit
  else mret tt.

(** [delete ip]: the virtual destructor runs, then the storage is freed. *)
Definition delete_ (ip : addr) : M unit :=
  fun w =>
    if is_nonnull ip then
      match heap w !! ip with
      | Some _ =>
          Returns (tt, {| heap := delete ip (heap w);
                          destroyed := ip :: destroyed w |})
      | None => Undefined
      end
    else Returns (tt, w).

(** ** PrivateAutoPtr<T> *)

Record PrivateAutoPtr : Type := {
  ptr : addr
}.

(** [PrivateAutoPtr(T *p = 0) : ptr(p) {}] *)
Definition PrivateAutoPtr_ctor (p : addr) : M PrivateAutoPtr :=
  mret {| ptr := p |}.

(** [[
    void reset(T *p = 0) {
        IPrivate *ip = reinterpret_cast<IPrivate *>(ptr);
        if(ip)
        {
            assert(ip->privateInstVerification() == OPAQ_IPRIVATE_VERIFICATION);
            delete ip;
        }
        ptr = p;
    }
    ]] *)
Definition reset (cfg : BuildConfig) (p : addr) (this : PrivateAutoPtr)
  : M PrivateAutoPtr :=
  let ip := reinterpret_cast (ptr this) in
  (if is_nonnull ip then
     assert cfg (o ← load ip; mret (verification_ok o));;
     delete_ ip
   else mret tt);;
  mret {| ptr := p |}.

(** [~PrivateAutoPtr() { reset(); }] *)
Definition PrivateAutoPtr_dtor (cfg : BuildConfig) (this : PrivateAutoPtr)
  : M PrivateAutoPtr :=
  reset cfg null this.

(** [T *get() const { return ptr; }] *)
Definition get (this : PrivateAutoPtr) : addr := ptr this.

(** [T const *getConst() const { return ptr; }] *)
Definition getConst (this : PrivateAutoPtr) : addr := ptr this.

(** [operator T *() const { return ptr; }] *)
Definition operator_T_ptr (this : PrivateAutoPtr) : addr := ptr this.

(** [T *operator -> () const { return ptr; }] *)
Definition operator_arrow (this : PrivateAutoPtr) : addr := ptr this.

(** [T &operator * () const { return *ptr; }] *)
Definition operator_star (this : PrivateAutoPtr) : M IPrivate :=
  load (ptr this).

(** [[
    T *release() {
        T *p = ptr;
        ptr = 0;
        return p;
    }
    ]] *)
Definition release (this : PrivateAutoPtr) : M (addr * PrivateAutoPtr) :=
  let p := ptr this in
  let this' := {| ptr := null |} in
  mret (p, this').

(** [void swap(PrivateAutoPtr &other) { std::swap(ptr, other.ptr); }] *)
Definition swap (this other : PrivateAutoPtr)
  : M (PrivateAutoPtr * PrivateAutoPtr) :=
  mret ({| ptr := ptr other |}, {| ptr := ptr this |}).

(** [bool isNull() const { return !ptr; }] *)
Definition isNull (this : PrivateAutoPtr) : bool := negb (is_nonnull (ptr this)).

(** [[
    bool isValid() const {
        return ptr && reinterpret_cast<IPrivate *>(ptr)->privateInstVerification() == OPAQ_IPRIVATE_VERIFICATION;
    }
    ]] *)
Definition isValid (this : PrivateAutoPtr) : M bool :=
  if is_nonnull (ptr this) then
    o ← load (reinterpret_cast (ptr this)); mret (verification_ok o)
  else mret false.

(** ** States that the statements below talk about *)

(** The world after [delete x]. *)
Definition after_delete (x : addr) (w : World) : World :=
  {| heap := delete x (heap w); destroyed := x :: destroyed w |}.

(** [x] is a live instance that passes the check [reset] makes in this
    build (no check at all when [assert] is compiled out). *)
Definition sound (cfg : BuildConfig) (w : World) (x : addr) : Prop :=
  exists o, heap w !! x = Some o /\
            (assert_enabled cfg = true -> verification_ok o = true).

(** ** The ways an owning pointer's instance can come to be destroyed *)

Inductive lifetime_event : Type :=
| ScopeExit                    (* the owning pointer goes out of scope *)
| ExplicitReset (p : addr)     (* O.reset(p) *)
| ExplicitDestructor.          (* O.~PrivateAutoPtr() *)

Definition occur (cfg : BuildConfig) (e : lifetime_event)
    (this : PrivateAutoPtr) : M PrivateAutoPtr :=
  match e with
  | ScopeExit => PrivateAutoPtr_dtor cfg this
  | ExplicitReset p => reset cfg p this
  | ExplicitDestructor => PrivateAutoPtr_dtor cfg this
  end.

Fixpoint occur_all (cfg : BuildConfig) (es : list lifetime_event)
    (this : PrivateAutoPtr) : M PrivateAutoPtr :=
  match es with
  | [] => mret this
  | e :: es' => this' ← occur cfg e this; occur_all cfg es' this'
  end.

(** The non-null instances handed to [reset] along a sequence. *)
Fixpoint handed (es : list lifetime_event) : list addr :=
  match es with
  | [] => []
  | ExplicitReset p :: es' =>
      if is_nonnull p then p :: handed es' else handed es'
  | _ :: es' => handed es'
  end.

(** The argument with which an event calls [reset]. *)
Definition reset_argument (e : lifetime_event) : addr :=
  match e with
  | ExplicitReset p => p
  | ScopeExit | ExplicitDestructor => null
  end.

(** The run of [es] returns and has destroyed the instance held at
    its start exactly once. *)
Definition destroyed_exactly_once (cfg : BuildConfig)
    (es : list lifetime_event) (this : PrivateAutoPtr) (w : World) : Prop :=
  exists this' w',
    occur_all cfg es this w = Returns (this', w') /\
    destructions (ptr this) w' = S (destructions (ptr this) w).

(** ** Client programs

    A client allocates instances with [new], declares owning pointers and
    calls their member functions.  Owning pointers are named by numbers;
    using one that was never declared, or whose scope has ended, is
    undefined. *)

(** [new Instance(...)]: storage that is neither null nor live, in which
    the [IPrivate()] base constructor runs. *)
Definition operator_new (w : World) : addr :=
  fresh ({[null]} ∪ dom (heap w)).

Definition new_ (cfg : BuildConfig) : M addr :=
  fun w =>
    let a := operator_new w in
    Returns (a, {| heap := <[a := IPrivate_ctor cfg]> (heap w);
                   destroyed := destroyed w |}).

Record Machine : Type := {
  world : World;
  owners : gmap nat PrivateAutoPtr
}.

Definition initial : Machine := {| world := empty_world; owners := ∅ |}.

Inductive operation : Type :=
| New                               (* new Instance(...) *)
| Construct (o : nat) (p : addr)    (* PrivateAutoPtr<Instance> o(p); *)
| Reset (o : nat) (p : addr)        (* o.reset(p); *)
| Release (o : nat)                 (* o.release(); *)
| Swap (a b : nat)                  (* a.swap(b); *)
| Get (o : nat)                     (* o.get(), o.getConst(), o->, (T* )o *)
| IsNull (o : nat)                  (* o.isNull() *)
| IsValid (o : nat)                 (* o.isValid() *)
| ScopeEnd (o : nat).               (* o goes out of scope *)

(** Run a member function of owner [o] and store what it leaves in [o]. *)
Definition call {A : Type} (m : Machine) (o : nat)
    (f : PrivateAutoPtr -> M A)
    (k : A -> gmap nat PrivateAutoPtr -> gmap nat PrivateAutoPtr)
  : outcome Machine :=
  match owners m !! o with
  | None => Undefined
  | Some this =>
      match f this (world m) with
      | Returns (a, w') => Returns {| world := w'; owners := k a (owners m) |}
      | AssertionFailed => AssertionFailed
      | Undefined => Undefined
      end
  end.

(** One statement of a client program.  Declaring a name again shadows
    the earlier owner.  [isValid] is declared only under [OPAQ_DEBUG]; a
    program that calls it in another build is rejected like any other
    program without a meaning. *)
Definition exec (cfg : BuildConfig) (c : operation) (m : Machine)
  : outcome Machine :=
  match c with
  | New =>
      match new_ cfg (world m) with
      | Returns (_, w') => Returns {| world := w'; owners := owners m |}
      | AssertionFailed => AssertionFailed
      | Undefined => Undefined
      end
  | Construct o p =>
      match PrivateAutoPtr_ctor p (world m) with
      | Returns (this, w') =>
          Returns {| world := w'; owners := <[o := this]> (owners m) |}
      | AssertionFailed => AssertionFailed
      | Undefined => Undefined
      end
  | Reset o p => call m o (reset cfg p) (fun this' => <[o := this']>)
  | Release o => call m o release (fun r => <[o := r.2]>)
  | Swap a b =>
      match owners m !! b with
      | None => Undefined
      | Some other =>
          call m a (fun this => swap this other)
            (fun r os => <[b := r.2]> (<[a := r.1]> os))
      end
  | Get o => call m o (fun this => mret (get this)) (fun _ os => os)
  | IsNull o => call m o (fun this => mret (isNull this)) (fun _ os => os)
  | IsValid o =>
      if OPAQ_DEBUG cfg then call m o isValid (fun _ os => os)
      else Undefined
  | ScopeEnd o => call m o (PrivateAutoPtr_dtor cfg) (fun _ => delete o)
  end.

Fixpoint exec_all (cfg : BuildConfig) (cs : list operation) (m : Machine)
  : outcome Machine :=
  match cs with
  | [] => Returns m
  | c :: cs' =>
      match exec cfg c m with
      | Returns m' => exec_all cfg cs' m'
      | AssertionFailed => AssertionFailed
      | Undefined => Undefined
      end
  end.

(** Every live instance is exactly as [IPrivate()] left it. *)
Definition as_constructed (cfg : BuildConfig) (w : World) : Prop :=
  forall a o, heap w !! a = Some o -> o = IPrivate_ctor cfg.

(** [w'] has the objects of [w], possibly fewer, possibly with instances
    fresh from [IPrivate()] on storage that was free. *)
Definition objects_kept (cfg : BuildConfig) (w w' : World) : Prop :=
  forall a o', heap w' !! a = Some o' ->
    heap w !! a = Some o' \/ (heap w !! a = None /\ o' = IPrivate_ctor cfg).

(** ** Idioms built from the member functions *)

(** [{ PrivateAutoPtr<T> tmp(p); o.swap(tmp); }]: the temporary takes the
    old instance over and destroys it at the end of the block. *)
Definition swap_with_temporary (cfg : BuildConfig) (p : addr)
    (this : PrivateAutoPtr) : M PrivateAutoPtr :=
  tmp ← PrivateAutoPtr_ctor p;
  r ← swap this tmp;
  PrivateAutoPtr_dtor cfg r.2;;
  mret r.1.

(** [b.reset(a.release());] gives the pair of [a] and [b] afterwards. *)
Definition reset_from_release (cfg : BuildConfig) (a b : PrivateAutoPtr)
  : M (PrivateAutoPtr * PrivateAutoPtr) :=
  r ← release a;
  b' ← reset cfg r.1 b;
  mret (r.2, b').

(** ** Client programs that keep to single ownership *)

(** How many instances a program allocates. *)
Fixpoint allocations (cs : list operation) : nat :=
  match cs with
  | [] => 0
  | New :: cs' => S (allocations cs')
  | _ :: cs' => allocations cs'
  end.

(** Every live instance is as constructed, every owner holds null or a
    live instance, and no instance has two owners. *)
Definition well_owned (cfg : BuildConfig) (m : Machine) : Prop :=
  as_constructed cfg (world m) /\
  (forall o this, owners m !! o = Some this ->
     ptr this = null \/ is_Some (heap (world m) !! ptr this)) /\
  (forall o1 o2 t1 t2,
     owners m !! o1 = Some t1 -> owners m !! o2 = Some t2 ->
     ptr t1 = ptr t2 -> ptr t1 ≠ null -> o1 = o2).

(** Some owning pointer holds [p]. *)
Definition held (m : Machine) (p : addr) : bool :=
  existsb (fun kv => (ptr kv.2 =? p)%N) (map_to_list (owners m)).

Definition live (w : World) (p : addr) : bool :=
  match heap w !! p with Some _ => true | None => false end.

Definition declared (m : Machine) (o : nat) : bool :=
  match owners m !! o with Some _ => true | None => false end.

(** [p] may be handed to an owning pointer: it is null, or a live instance
    that no owning pointer holds. *)
Definition unowned (m : Machine) (p : addr) : bool :=
  negb (is_nonnull p) || (live (world m) p && negb (held m p)).

(** What the discipline asks of one statement in state [m]: owners are
    declared once and used only while in scope, [isValid] only where it
    exists, and only unowned instances are handed over. *)
Definition permitted (cfg : BuildConfig) (c : operation) (m : Machine) : bool :=
  match c with
  | New => true
  | Construct o p => negb (declared m o) && unowned m p
  | Reset o p => declared m o && unowned m p
  | Release o => declared m o
  | Swap a b => declared m a && declared m b
  | Get o => declared m o
  | IsNull o => declared m o
  | IsValid o => OPAQ_DEBUG cfg && declared m o
  | ScopeEnd o => declared m o
  end.

(** Every statement of [cs] is permitted in the state in which it runs. *)
Fixpoint disciplined (cfg : BuildConfig) (cs : list operation) (m : Machine)
  : bool :=
  match cs with
  | [] => true
  | c :: cs' =>
      permitted cfg c m &&
      match exec cfg c m with
      | Returns m' => disciplined cfg cs' m'
      | AssertionFailed => true
      | Undefined => true
      end
  end.

(** ** Sample builds and worlds *)

Definition debug_build : BuildConfig := {| NDEBUG := false; _DEBUG := false |}.
Definition release_build : BuildConfig := {| NDEBUG := true; _DEBUG := false |}.
Definition ndebug_with_debug : BuildConfig := {| NDEBUG := true; _DEBUG := true |}.

(** One live instance [o] at address [x], nothing destroyed yet. *)
Definition world_with (x : addr) (o : IPrivate) : World :=
  {| heap := {[ x := o ]}; destroyed := [] |}.

(** An instance whose verification code has been overwritten. *)
Definition damaged : IPrivate := {| _privateInstVerification := Some 0%Z |}.

(** ** Basic facts about pointers and the verification code *)

Lemma is_nonnull_true (p : addr) : is_nonnull p = true <-> p ≠ null.
Proof.
  unfold is_nonnull. rewrite negb_true_iff, N.eqb_neq. reflexivity.
Qed.

Lemma is_nonnull_false (p : addr) : is_nonnull p = false <-> p = null.
Proof.
  unfold is_nonnull. rewrite negb_false_iff, N.eqb_eq. reflexivity.
Qed.

Lemma to_uint_verification :
  to_uint OPAQ_IPRIVATE_VERIFICATION = OPAQ_IPRIVATE_VERIFICATION.
Proof. reflexivity. Qed.

Lemma verification_ok_iff (o : IPrivate) :
  verification_ok o = true <->
  privateInstVerification o = Some OPAQ_IPRIVATE_VERIFICATION.
Proof.
  unfold verification_ok. destruct (privateInstVerification o) as [v|].
  - rewrite Z.eqb_eq. split; congruence.
  - split; discriminate.
Qed.

Lemma verification_ok_false_iff (o : IPrivate) :
  verification_ok o = false <->
  privateInstVerification o ≠ Some OPAQ_IPRIVATE_VERIFICATION.
Proof.
  rewrite <- verification_ok_iff. destruct (verification_ok o); split; congruence.
Qed.

(** ** How [reset] runs, case by case *)

Ltac unfold_M :=
  unfold reset, PrivateAutoPtr_dtor, assert, load, delete_, abort, undefined,
    reinterpret_cast, mbind, M_bind, mret, M_ret in *.

Lemma reset_null cfg p this w :
  ptr this = null ->
  reset cfg p this w = Returns ({| ptr := p |}, w).
Proof.
  intros Hnull. unfold_M. rewrite Hnull. reflexivity.
Qed.

Lemma reset_live cfg p this w o :
  ptr this ≠ null ->
  heap w !! ptr this = Some o ->
  (assert_enabled cfg = true -> verification_ok o = true) ->
  reset cfg p this w = Returns ({| ptr := p |}, after_delete (ptr this) w).
Proof.
  intros Hnn Hlive Hok. apply is_nonnull_true in Hnn.
  unfold_M. rewrite Hnn.
  destruct (assert_enabled cfg); simpl; rewrite Hlive; simpl.
  - rewrite Hok by reflexivity. simpl. rewrite Hlive. reflexivity.
  - reflexivity.
Qed.

Lemma reset_corrupted cfg p this w o :
  assert_enabled cfg = true ->
  ptr this ≠ null ->
  heap w !! ptr this = Some o ->
  verification_ok o = false ->
  reset cfg p this w = AssertionFailed.
Proof.
  intros Hassert Hnn Hlive Hbad. apply is_nonnull_true in Hnn.
  unfold_M. rewrite Hnn, Hassert. simpl. rewrite Hlive. simpl.
  rewrite Hbad. reflexivity.
Qed.

Lemma reset_dangling cfg p this w :
  ptr this ≠ null ->
  heap w !! ptr this = None ->
  reset cfg p this w = Undefined.
Proof.
  intros Hnn Hdead. apply is_nonnull_true in Hnn.
  unfold_M. rewrite Hnn.
  destruct (assert_enabled cfg); simpl; rewrite Hdead; reflexivity.
Qed.

(** Whatever [reset] returns is one of the two normal cases above. *)
Lemma reset_returns_inv cfg p this w this' w' :
  reset cfg p this w = Returns (this', w') ->
  this' = {| ptr := p |} /\
  ((ptr this = null /\ w' = w) \/
   (ptr this ≠ null /\ w' = after_delete (ptr this) w /\
    exists o, heap w !! ptr this = Some o /\
              (assert_enabled cfg = true -> verification_ok o = true))).
Proof.
  intros Hrun.
  destruct (N.eq_dec (ptr this) null) as [Hnull|Hnn].
  - rewrite (reset_null cfg p this w Hnull) in Hrun.
    inversion Hrun; subst. auto.
  - destruct (heap w !! ptr this) as [o|] eqn:Hlive.
    + destruct (assert_enabled cfg) eqn:Hassert.
      * destruct (verification_ok o) eqn:Hok.
        -- rewrite (reset_live cfg p this w o) in Hrun by auto.
           inversion Hrun; subst. split; [reflexivity|]. right. eauto 6.
        -- rewrite (reset_corrupted cfg p this w o) in Hrun by auto.
           discriminate.
      * rewrite (reset_live cfg p this w o) in Hrun by (auto; congruence).
        inversion Hrun; subst. split; [reflexivity|]. right.
        repeat split; auto. exists o. split; [reflexivity | congruence].
    + rewrite (reset_dangling cfg p this w) in Hrun by auto. discriminate.
Qed.

(** [reset] returns whenever the pointer holds null or a sound instance. *)
Lemma reset_completes cfg p this w :
  ptr this = null \/ sound cfg w (ptr this) ->
  reset cfg p this w =
  Returns ({| ptr := p |},
           if is_nonnull (ptr this) then after_delete (ptr this) w else w).
Proof.
  intros Hheld.
  destruct (N.eq_dec (ptr this) null) as [Hnull|Hnn].
  - rewrite reset_null by assumption.
    apply is_nonnull_false in Hnull. rewrite Hnull. reflexivity.
  - destruct Hheld as [Hnull|(o & Hlive & Hok)]; [contradiction|].
    rewrite (reset_live cfg p this w o) by assumption.
    apply is_nonnull_true in Hnn. rewrite Hnn. reflexivity.
Qed.

Lemma destructions_after_delete x w :
  destructions x (after_delete x w) = S (destructions x w).
Proof.
  unfold destructions, after_delete. simpl.
  destruct (N.eq_dec x x); [reflexivity | congruence].
Qed.

Lemma destructions_after_delete_ne x y w :
  x ≠ y -> destructions y (after_delete x w) = destructions y w.
Proof.
  intros Hne. unfold destructions, after_delete. simpl.
  destruct (N.eq_dec x y); [congruence | reflexivity].
Qed.

(** ** Sequences of lifetime events *)

Lemma occur_is_reset cfg e this :
  occur cfg e this = reset cfg (reset_argument e) this.
Proof. destruct e; reflexivity. Qed.

Lemma occur_all_cons cfg e es this w :
  occur_all cfg (e :: es) this w =
  match reset cfg (reset_argument e) this w with
  | Returns (this', w') => occur_all cfg es this' w'
  | AssertionFailed => AssertionFailed
  | Undefined => Undefined
  end.
Proof.
  simpl. rewrite occur_is_reset. reflexivity.
Qed.

Lemma sound_after_delete cfg w x y :
  x ≠ y -> sound cfg w y -> sound cfg (after_delete x w) y.
Proof.
  intros Hne (o & Hlive & Hok). exists o. split; [|assumption].
  simpl. rewrite lookup_delete_ne by assumption. assumption.
Qed.

(** An instance that is no longer live is not destroyed again by any run
    that returns. *)
Lemma occur_all_spares_dead cfg x es :
  forall this w this' w',
    heap w !! x = None ->
    occur_all cfg es this w = Returns (this', w') ->
    destructions x w' = destructions x w /\ heap w' !! x = None.
Proof.
  induction es as [|e es IH]; intros this w this' w' Hdead Hrun.
  - inversion Hrun; subst. auto.
  - rewrite occur_all_cons in Hrun.
    destruct (reset cfg (reset_argument e) this w) as [[this1 w1]| |] eqn:Hstep;
      try discriminate.
    apply reset_returns_inv in Hstep
      as [_ [[_ ->]|(_ & -> & o & Hlive & _)]].
    + eapply IH; eassumption.
    + assert (Hne : ptr this ≠ x) by congruence.
      destruct (IH this1 (after_delete (ptr this) w) this' w') as [Hcount Hgone].
      * simpl. rewrite lookup_delete_ne; assumption.
      * assumption.
      * rewrite Hcount, destructions_after_delete_ne by assumption. auto.
Qed.

Lemma handed_cons e es :
  handed (e :: es) =
  if is_nonnull (reset_argument e) then reset_argument e :: handed es
  else handed es.
Proof. destruct e; reflexivity. Qed.

(** A run returns when every instance handed over is sound, handed over
    once, and not the one held at the start. *)
Lemma occur_all_completes cfg es :
  forall this w,
    ptr this = null \/ (sound cfg w (ptr this) /\ ptr this ∉ handed es) ->
    NoDup (handed es) ->
    (forall p, p ∈ handed es -> sound cfg w p) ->
    exists this' w', occur_all cfg es this w = Returns (this', w').
Proof.
  induction es as [|e es IH]; intros this w Hheld Hnodup Hall.
  - simpl. eexists _, _. reflexivity.
  - rewrite occur_all_cons.
    rewrite reset_completes by (destruct Hheld as [|[]]; auto).
    rewrite handed_cons in *.
    set (p := reset_argument e) in *.
    assert (Hrest : forall w1,
              (forall q, q ∈ handed es -> sound cfg w1 q) ->
              (is_nonnull p = true -> sound cfg w1 p) ->
              exists this' w', occur_all cfg es {| ptr := p |} w1 = Returns (this', w')).
    { intros w1 Hall1 Hp. apply IH; simpl.
      - destruct (is_nonnull p) eqn:Hp'.
        + right. split; [auto|]. apply NoDup_cons in Hnodup. tauto.
        + left. apply is_nonnull_false. assumption.
      - destruct (is_nonnull p); [apply NoDup_cons in Hnodup; tauto | assumption].
      - assumption. }
    destruct (is_nonnull (ptr this)) eqn:Hthis.
    + destruct Hheld as [Hnull|[_ Hfresh]].
      { apply is_nonnull_false in Hnull. congruence. }
      apply Hrest.
      * intros q Hq. apply sound_after_delete.
        -- intros Heq. apply Hfresh. rewrite Heq.
           destruct (is_nonnull p); [right|]; assumption.
        -- apply Hall. destruct (is_nonnull p); [right|]; assumption.
      * intros Hp. rewrite Hp in *. apply sound_after_delete.
        -- intros Heq. apply Hfresh. rewrite Heq. left.
        -- apply Hall. left.
    + apply Hrest.
      * intros q Hq. apply Hall. destruct (is_nonnull p); [right|]; assumption.
      * intros Hp. rewrite Hp in *. apply Hall. left.
Qed.

(** ** Client programs never alter an instance *)

Lemma objects_kept_refl cfg w : objects_kept cfg w w.
Proof. intros a o' H. auto. Qed.

Lemma operator_new_fresh w :
  operator_new w ≠ null /\ heap w !! operator_new w = None.
Proof.
  assert (Hfresh : operator_new w ∉ ({[null]} ∪ dom (heap w) : gset N)).
  { unfold operator_new. apply (is_fresh (C := gset N)). }
  apply not_elem_of_union in Hfresh as [Hnull Hdom].
  split.
  - intros Heq. apply Hnull. apply elem_of_singleton. assumption.
  - apply not_elem_of_dom. assumption.
Qed.

Lemma new_kept cfg w a w' :
  new_ cfg w = Returns (a, w') -> objects_kept cfg w w'.
Proof.
  unfold new_. intros Hrun. inversion Hrun; subst. clear Hrun.
  intros b o' Hb. simpl in Hb.
  destruct (N.eq_dec (operator_new w) b) as [<-|Hne].
  - rewrite lookup_insert_eq in Hb. inversion Hb; subst.
    right. split; [apply operator_new_fresh | reflexivity].
  - rewrite lookup_insert_ne in Hb by assumption. auto.
Qed.

Lemma reset_kept cfg p this w this' w' :
  reset cfg p this w = Returns (this', w') -> objects_kept cfg w w'.
Proof.
  intros Hrun.
  apply reset_returns_inv in Hrun as [_ [[_ ->]|(_ & -> & _)]].
  - apply objects_kept_refl.
  - intros a o' Ha. simpl in Ha.
    apply lookup_delete_Some in Ha as [_ Ha]. auto.
Qed.

Lemma isValid_kept cfg this w b w' :
  isValid this w = Returns (b, w') -> objects_kept cfg w w'.
Proof.
  unfold isValid, load, mbind, M_bind, mret, M_ret.
  destruct (is_nonnull (ptr this)).
  - destruct (heap w !! reinterpret_cast (ptr this)); [|discriminate].
    intros Hrun. inversion Hrun; subst. apply objects_kept_refl.
  - intros Hrun. inversion Hrun; subst. apply objects_kept_refl.
Qed.

Lemma call_kept {A : Type} cfg m o (f : PrivateAutoPtr -> M A) k m' :
  (forall this w a w', f this w = Returns (a, w') -> objects_kept cfg w w') ->
  call m o f k = Returns m' ->
  objects_kept cfg (world m) (world m').
Proof.
  intros Hf. unfold call.
  destruct (owners m !! o) as [this|]; [|discriminate].
  destruct (f this (world m)) as [[a w']| |] eqn:Hrun; try discriminate.
  intros Hm. inversion Hm; subst. simpl. eapply Hf. eassumption.
Qed.

Lemma exec_kept cfg c m m' :
  exec cfg c m = Returns m' -> objects_kept cfg (world m) (world m').
Proof.
  destruct c as [|o p|o p|o|a b|o|o|o|o]; simpl.
  - intros Hm. inversion Hm; subst. simpl.
    apply (new_kept cfg (world m) (operator_new (world m))). reflexivity.
  - intros Hm. inversion Hm; subst. apply objects_kept_refl.
  - apply call_kept. intros this w a w'. apply reset_kept.
  - apply call_kept. intros this w a w' Hrun.
    inversion Hrun; subst. apply objects_kept_refl.
  - destruct (owners m !! b) as [other|]; [|discriminate].
    apply call_kept. intros this w a' w' Hrun.
    inversion Hrun; subst. apply objects_kept_refl.
  - apply call_kept. intros this w a w' Hrun.
    inversion Hrun; subst. apply objects_kept_refl.
  - apply call_kept. intros this w a w' Hrun.
    inversion Hrun; subst. apply objects_kept_refl.
  - destruct (OPAQ_DEBUG cfg); [|discriminate].
    apply call_kept. intros this w a w'. apply isValid_kept.
  - apply call_kept. intros this w a w'. apply reset_kept.
Qed.

Lemma exec_as_constructed cfg c m m' :
  exec cfg c m = Returns m' ->
  as_constructed cfg (world m) -> as_constructed cfg (world m').
Proof.
  intros Hrun Hinv a o' Ha.
  destruct (exec_kept cfg c m m' Hrun a o' Ha) as [Hold|[_ Hnew]].
  - eapply Hinv. eassumption.
  - assumption.
Qed.

Lemma exec_all_as_constructed cfg cs :
  forall m m',
    exec_all cfg cs m = Returns m' ->
    as_constructed cfg (world m) -> as_constructed cfg (world m').
Proof.
  induction cs as [|c cs IH]; intros m m' Hrun Hinv; simpl in Hrun.
  - inversion Hrun; subst. assumption.
  - destruct (exec cfg c m) as [m1| |] eqn:Hstep; try discriminate.
    eapply IH; [eassumption|]. eapply exec_as_constructed; eassumption.
Qed.

Lemma IPrivate_ctor_verification cfg :
  OPAQ_DEBUG cfg = true ->
  privateInstVerification (IPrivate_ctor cfg) = Some OPAQ_IPRIVATE_VERIFICATION.
Proof.
  intros Hdebug. unfold privateInstVerification, IPrivate_ctor. simpl.
  rewrite Hdebug, to_uint_verification. reflexivity.
Qed.

(** ** Owning-pointer operations *)

(** C1. After [reset p] returns, the pointer holds exactly [p] ([get]
    returns [p]); if it held a non-null instance before, that instance was
    live, has been deleted, and its destructor ran exactly once: the log
    gains that one entry, so a destruction counter goes up by exactly one.
    If it held null, nothing is destroyed.  [reset] does return whenever
    the pointer holds null or a live instance that passes the check. *)
Theorem reset_owns_new_and_destroys_old cfg p this w :
  (forall this' w',
     reset cfg p this w = Returns (this', w') ->
     get this' = p /\
     if is_nonnull (ptr this) then
       is_Some (heap w !! ptr this) /\
       heap w' !! ptr this = None /\
       destroyed w' = ptr this :: destroyed w /\
       destructions (ptr this) w' = S (destructions (ptr this) w) /\
       destruction_counter w' = S (destruction_counter w)
     else w' = w) /\
  (ptr this = null \/ sound cfg w (ptr this) ->
   exists this' w', reset cfg p this w = Returns (this', w')).
Proof.
  split.
  - intros this' w' Hrun.
    apply reset_returns_inv in Hrun as [-> [[Hnull ->]|(Hnn & -> & o & Hlive & _)]].
    + split; [reflexivity|].
      apply is_nonnull_false in Hnull. rewrite Hnull. reflexivity.
    + split; [reflexivity|].
      apply is_nonnull_true in Hnn. rewrite Hnn.
      repeat split.
      * rewrite Hlive. eauto.
      * apply lookup_delete_eq.
      * apply destructions_after_delete.
  - intros Hheld. rewrite reset_completes by assumption. eauto.
Qed.

Lemma reset_owns_new_and_destroys_old_witness :
  let this := {| ptr := 1%N |} in
  let w := world_with 1%N (IPrivate_ctor debug_build) in
  (ptr this = null \/ sound debug_build w (ptr this)) /\
  exists this' w',
    reset debug_build 2%N this w = Returns (this', w') /\
    get this' = 2%N /\
    destructions 1%N w' = 1 /\
    destruction_counter w' = 1.
Proof.
  intros this w.
  assert (Hheld : ptr this = null \/ sound debug_build w (ptr this)).
  { right. exists (IPrivate_ctor debug_build). split; reflexivity. }
  split; [exact Hheld|].
  destruct (reset_owns_new_and_destroys_old debug_build 2%N this w)
    as [Hafter Hreturns].
  destruct (Hreturns Hheld) as (this' & w' & Hrun).
  exists this', w'. split; [exact Hrun|].
  destruct (Hafter this' w' Hrun) as (Hget & _ & _ & _ & Hcount & Hcounter).
  split; [exact Hget|]. split; [exact Hcount | exact Hcounter].
Defined.


(** C2 as stated fails: with [O] holding the live, well-formed instance at
    address 1, [O.reset(1)] followed by scope exit is a sequence of an
    explicit reset and a scope exit; the reset deletes the instance and
    keeps its address, and the destructor then reads and deletes storage
    that is no longer live.  The run does not end with exactly one
    destruction: it is undefined at the second delete. *)
Lemma self_reset_then_scope_exit_not_once :
  let this := {| ptr := 1%N |} in
  let w := world_with 1%N (IPrivate_ctor debug_build) in
  ptr this ≠ null /\
  sound debug_build w (ptr this) /\
  reset debug_build 1%N this w =
    Returns ({| ptr := 1%N |}, {| heap := ∅; destroyed := [1%N] |}) /\
  occur_all debug_build [ExplicitReset 1%N; ScopeExit] this w = Undefined /\
  ~ destroyed_exactly_once debug_build [ExplicitReset 1%N; ScopeExit] this w.
Proof.
  simpl.
  split; [discriminate|].
  split; [exists (IPrivate_ctor debug_build); split; reflexivity|].
  split; [vm_compute; reflexivity|].
  split; [vm_compute; reflexivity|].
  intros (this' & w' & Hrun & _). vm_compute in Hrun. discriminate.
Qed.

(** C2, amended.  The destructor is [reset(0)].  Let [O] hold a live
    instance that passes the build's check.  Along any non-empty sequence
    of scope exits, explicit resets and destructor calls, every run that
    returns has destroyed that instance exactly once (never zero times,
    never twice) and it is no longer live; and the run does return when
    each non-null instance handed to [reset] is live, passes the check, is
    handed over only once and is not the instance held at the start. *)
Theorem lifetime_destroys_exactly_once cfg es this w :
  ptr this ≠ null ->
  sound cfg w (ptr this) ->
  es ≠ [] ->
  PrivateAutoPtr_dtor cfg this w = reset cfg null this w /\
  (forall this' w',
     occur_all cfg es this w = Returns (this', w') ->
     destructions (ptr this) w' = S (destructions (ptr this) w) /\
     heap w' !! ptr this = None) /\
  (NoDup (ptr this :: handed es) ->
   (forall p, p ∈ handed es -> sound cfg w p) ->
   destroyed_exactly_once cfg es this w).
Proof.
  intros Hnn Hsound Hne.
  assert (Honce : forall this' w',
             occur_all cfg es this w = Returns (this', w') ->
             destructions (ptr this) w' = S (destructions (ptr this) w) /\
             heap w' !! ptr this = None).
  { destruct es as [|e es]; [contradiction|].
    intros this' w' Hrun.
    rewrite occur_all_cons, reset_completes in Hrun by auto.
    pose proof Hnn as Hnn'. apply is_nonnull_true in Hnn'.
    rewrite Hnn' in Hrun.
    assert (Hdead : heap (after_delete (ptr this) w) !! ptr this = None)
      by apply lookup_delete_eq.
    destruct (occur_all_spares_dead cfg _ _ _ _ _ _ Hdead Hrun) as [Hcount Hgone].
    rewrite Hcount, destructions_after_delete. auto. }
  split; [reflexivity|]. split; [exact Honce|].
  intros Hnodup Hall.
  apply NoDup_cons in Hnodup as [Hfresh Hnodup].
  destruct (occur_all_completes cfg es this w) as (this' & w' & Hrun); auto.
  exists this', w'. split; [assumption|]. apply (Honce this' w' Hrun).
Qed.

Lemma lifetime_destroys_exactly_once_witness :
  let this := {| ptr := 1%N |} in
  let w := {| heap := {[ 1%N := IPrivate_ctor debug_build;
                         2%N := IPrivate_ctor debug_build ]};
              destroyed := [] |} in
  let es := [ExplicitReset 2%N; ExplicitDestructor; ScopeExit] in
  ptr this ≠ null /\
  sound debug_build w (ptr this) /\
  es ≠ [] /\
  NoDup (ptr this :: handed es) /\
  (forall p, p ∈ handed es -> sound debug_build w p) /\
  destroyed_exactly_once debug_build es this w.
Proof.
  intros this w es.
  assert (Hnn : ptr this ≠ null) by discriminate.
  assert (Hsound : sound debug_build w (ptr this)).
  { exists (IPrivate_ctor debug_build). split; reflexivity. }
  assert (Hne : es ≠ []) by discriminate.
  assert (Hnodup : NoDup (ptr this :: handed es)).
  { apply (bool_decide_unpack _). vm_compute. exact I. }
  assert (Hall : forall p, p ∈ handed es -> sound debug_build w p).
  { intros p Hp. apply list_elem_of_singleton in Hp. subst p.
    exists (IPrivate_ctor debug_build). split; reflexivity. }
  repeat (split; [assumption|]).
  apply (lifetime_destroys_exactly_once debug_build es this w Hnn Hsound Hne);
    assumption.
Defined.


(** C3. [release] returns exactly the held reference and leaves the
    pointer null; neither the call nor the pointer's later destruction
    (once or repeatedly) changes the world: the released instance is not
    deleted and no destructor runs. *)
Theorem release_transfers_ownership cfg this w :
  exists this',
    release this w = Returns ((ptr this, this'), w) /\
    isNull this' = true /\
    PrivateAutoPtr_dtor cfg this' w = Returns (this', w) /\
    occur_all cfg [ExplicitDestructor; ScopeExit] this' w = Returns (this', w).
Proof.
  exists {| ptr := null |}. repeat split.
Qed.

(** C4. In a build with [OPAQ_DEBUG] (every checked build is one), the
    verification code of an object equals the constant right after
    [IPrivate()] has run, whether the type derives from [IPrivate]
    directly or through [Private<T>], and so it does for the object that
    [new] puts on fresh storage.  No operation of a client program changes
    an instance that stays live, and in every state such a program
    reaches from the empty one each live instance carries the constant. *)
Theorem verification_code_invariant cfg :
  OPAQ_DEBUG cfg = true ->
  privateInstVerification (IPrivate_ctor cfg)
    = Some OPAQ_IPRIVATE_VERIFICATION /\
  (forall (T : Type) (i : T),
     privateInstVerification (Private_base (Private_ctor cfg i))
       = Some OPAQ_IPRIVATE_VERIFICATION) /\
  (forall w a w',
     new_ cfg w = Returns (a, w') ->
     a ≠ null /\ heap w !! a = None /\
     exists o, heap w' !! a = Some o /\
               privateInstVerification o = Some OPAQ_IPRIVATE_VERIFICATION) /\
  (forall c m m' a o o',
     exec cfg c m = Returns m' ->
     heap (world m) !! a = Some o ->
     heap (world m') !! a = Some o' ->
     o' = o) /\
  (forall cs m a o,
     exec_all cfg cs initial = Returns m ->
     heap (world m) !! a = Some o ->
     privateInstVerification o = Some OPAQ_IPRIVATE_VERIFICATION).
Proof.
  intros Hdebug.
  pose proof (IPrivate_ctor_verification cfg Hdebug) as Hctor.
  split; [exact Hctor|]. split; [intros T i; exact Hctor|]. split; [|split].
  - intros w a w' Hnew. unfold new_ in Hnew. inversion Hnew; subst.
    destruct (operator_new_fresh w) as [Hnn Hfree].
    split; [assumption|]. split; [assumption|].
    exists (IPrivate_ctor cfg). simpl. rewrite lookup_insert_eq. auto.
  - intros c m m' a o o' Hrun Ha Ha'.
    destruct (exec_kept cfg c m m' Hrun a o' Ha') as [Hold|[Hfree _]];
      congruence.
  - intros cs m a o Hrun Ha.
    assert (Hinv : as_constructed cfg (world m)).
    { eapply exec_all_as_constructed; [eassumption|].
      intros b o' Hb. simpl in Hb. rewrite lookup_empty in Hb. discriminate. }
    rewrite (Hinv a o Ha). exact Hctor.
Qed.

Lemma verification_code_invariant_witness :
  let cs := [New; Construct 0 1%N; New; Reset 0 2%N] in
  OPAQ_DEBUG debug_build = true /\
  exists m,
    exec_all debug_build cs initial = Returns m /\
    heap (world m) !! 2%N = Some (IPrivate_ctor debug_build) /\
    privateInstVerification (IPrivate_ctor debug_build)
      = Some OPAQ_IPRIVATE_VERIFICATION.
Proof.
  intros cs.
  split; [reflexivity|].
  eexists. split; [vm_compute; reflexivity|].
  split; [vm_compute; reflexivity|].
  destruct (verification_code_invariant debug_build eq_refl)
    as (_ & _ & _ & _ & Hreach).
  eapply (Hreach cs _ 2%N); vm_compute; reflexivity.
Defined.


(** C5. In a checked build, [reset] (and the destructor, which calls it)
    on a pointer whose held non-null instance carries a verification code
    other than the constant stops with an assertion failure; when the
    pointer holds null, or an instance with the right code, no assertion
    fires and the call returns. *)
Theorem reset_asserts_verification cfg p this w :
  checked_build cfg = true ->
  (forall o,
     ptr this ≠ null ->
     heap w !! ptr this = Some o ->
     privateInstVerification o ≠ Some OPAQ_IPRIVATE_VERIFICATION ->
     reset cfg p this w = AssertionFailed /\
     PrivateAutoPtr_dtor cfg this w = AssertionFailed) /\
  (ptr this = null \/
   (exists o, heap w !! ptr this = Some o /\
              privateInstVerification o = Some OPAQ_IPRIVATE_VERIFICATION) ->
   (exists this' w', reset cfg p this w = Returns (this', w')) /\
   (exists this' w', PrivateAutoPtr_dtor cfg this w = Returns (this', w'))).
Proof.
  intros Hchecked.
  apply andb_true_iff in Hchecked as [_ Hassert].
  split.
  - intros o Hnn Hlive Hbad. apply verification_ok_false_iff in Hbad.
    split; [|unfold PrivateAutoPtr_dtor]; eapply reset_corrupted; eauto.
  - intros Hheld.
    assert (Hsound : ptr this = null \/ sound cfg w (ptr this)).
    { destruct Hheld as [Hnull|(o & Hlive & Hgood)]; [auto|].
      right. exists o. split; [assumption|].
      intros _. apply verification_ok_iff. assumption. }
    unfold PrivateAutoPtr_dtor. rewrite !reset_completes by assumption.
    split; eexists _, _; reflexivity.
Qed.

Lemma reset_asserts_verification_witness :
  let this := {| ptr := 1%N |} in
  checked_build debug_build = true /\
  reset debug_build null this (world_with 1%N damaged) = AssertionFailed /\
  PrivateAutoPtr_dtor debug_build this (world_with 1%N damaged)
    = AssertionFailed /\
  (exists this' w',
     reset debug_build null this (world_with 1%N (IPrivate_ctor debug_build))
       = Returns (this', w')).
Proof.
  intros this.
  split; [reflexivity|].
  destruct (reset_asserts_verification debug_build null this
              (world_with 1%N damaged) eq_refl) as [Haborts _].
  destruct (Haborts damaged) as [Hreset Hdtor];
    [discriminate | reflexivity | discriminate |].
  split; [exact Hreset|]. split; [exact Hdtor|].
  destruct (reset_asserts_verification debug_build null this
              (world_with 1%N (IPrivate_ctor debug_build)) eq_refl)
    as [_ Hreturns].
  apply Hreturns. right.
  exists (IPrivate_ctor debug_build). split; reflexivity.
Defined.


(** C6. [swap] exchanges the two held references and leaves the world as
    it was: no instance is constructed, none is deleted and no destructor
    runs.  Swapping twice gives both pointers their original references
    back. *)
Theorem swap_exchanges_and_is_involutive (a b : PrivateAutoPtr) (w : World) :
  (exists a' b',
     swap a b w = Returns ((a', b'), w) /\
     get a' = get b /\ get b' = get a) /\
  (r ← swap a b; swap r.1 r.2) w = Returns ((a, b), w).
Proof.
  destruct a as [pa], b as [pb]. split.
  - exists {| ptr := pb |}, {| ptr := pa |}. repeat split.
  - reflexivity.
Qed.

(** C7. [isNull] is true directly after default construction, directly
    after [reset(0)] and directly after [release]; it is true exactly when
    the held reference is null. *)
Theorem isNull_spec :
  (forall w, exists this,
     PrivateAutoPtr_ctor null w = Returns (this, w) /\ isNull this = true) /\
  (forall cfg this w this' w',
     reset cfg null this w = Returns (this', w') -> isNull this' = true) /\
  (forall cfg this w,
     ptr this = null \/ sound cfg w (ptr this) ->
     exists this' w',
       reset cfg null this w = Returns (this', w') /\ isNull this' = true) /\
  (forall this w, exists p this',
     release this w = Returns ((p, this'), w) /\ isNull this' = true) /\
  (forall this, isNull this = true <-> ptr this = null).
Proof.
  repeat split.
  - intros w. exists {| ptr := null |}. split; reflexivity.
  - intros cfg this w this' w' Hrun.
    apply reset_returns_inv in Hrun as [-> _]. reflexivity.
  - intros cfg this w Hheld. rewrite reset_completes by assumption.
    eexists _, _. split; reflexivity.
  - intros this w. exists (ptr this), {| ptr := null |}. split; reflexivity.
  - unfold isNull. rewrite negb_true_iff. apply is_nonnull_false.
  - unfold isNull. rewrite negb_true_iff. apply is_nonnull_false.
Qed.

Lemma isNull_spec_witness :
  let this := {| ptr := 1%N |} in
  let w := world_with 1%N (IPrivate_ctor debug_build) in
  (ptr this = null \/ sound debug_build w (ptr this)) /\
  (exists this' w',
     reset debug_build null this w = Returns (this', w') /\
     isNull this' = true) /\
  (isNull {| ptr := null |} = true <-> ptr {| ptr := null |} = null).
Proof.
  intros this w.
  assert (Hheld : ptr this = null \/ sound debug_build w (ptr this)).
  { right. exists (IPrivate_ctor debug_build). split; reflexivity. }
  split; [exact Hheld|].
  destruct isNull_spec as (_ & _ & Hreset & _ & Hiff).
  split; [exact (Hreset debug_build this w Hheld) | exact (Hiff _)].
Defined.


(** C8. Construction validates nothing: for every address handed in
    (null, a well-formed instance, an instance with a damaged verification
    code, or storage that is not live at all), in every build and every
    world, the constructor returns, the pointer holds exactly that address
    and the world is untouched. *)
Theorem ctor_performs_no_validation (cfg : BuildConfig) (p : addr) (w : World) :
  exists this,
    PrivateAutoPtr_ctor p w = Returns (this, w) /\
    get this = p /\
    exec cfg (Construct 0 p) {| world := w; owners := ∅ |} =
      Returns {| world := w; owners := {[ 0 := this ]} |}.
Proof.
  exists {| ptr := p |}. repeat split.
Qed.

(** C9. Handing [reset] the very instance the pointer holds deletes that
    instance and then stores its address again: the call returns, the
    instance is gone from the store with its destructor run once, and the
    pointer is not null but refers to the deleted instance. *)
Theorem self_reset_leaves_dangling cfg this w :
  ptr this ≠ null ->
  sound cfg w (ptr this) ->
  exists this' w',
    reset cfg (ptr this) this w = Returns (this', w') /\
    isNull this' = false /\
    get this' = ptr this /\
    heap w' !! get this' = None /\
    destroyed w' = ptr this :: destroyed w.
Proof.
  intros Hnn Hsound.
  rewrite reset_completes by auto.
  apply is_nonnull_true in Hnn. rewrite Hnn.
  eexists _, _. split; [reflexivity|]. unfold isNull, get. simpl.
  rewrite Hnn. repeat split. apply lookup_delete_eq.
Qed.

Lemma self_reset_leaves_dangling_witness :
  let this := {| ptr := 1%N |} in
  let w := world_with 1%N (IPrivate_ctor debug_build) in
  ptr this ≠ null /\
  sound debug_build w (ptr this) /\
  exists this' w',
    reset debug_build 1%N this w = Returns (this', w') /\
    isNull this' = false /\
    get this' = 1%N /\
    heap w' !! get this' = None /\
    destroyed w' = 1%N :: destroyed w.
Proof.
  intros this w.
  assert (Hnn : ptr this ≠ null) by discriminate.
  assert (Hsound : sound debug_build w (ptr this)).
  { exists (IPrivate_ctor debug_build). split; reflexivity. }
  split; [exact Hnn|]. split; [exact Hsound|].
  exact (self_reset_leaves_dangling debug_build this w Hnn Hsound).
Defined.


(** C10. [release] validates nothing: in every world, whatever lies at
    the held address (a damaged verification code included), it returns
    the held reference, leaves the pointer null, and the world, hence the
    instance itself, is untouched.  In a checked build, an instance on
    which [reset] would have stopped with an assertion failure thus leaves
    the pointer unnoticed: it is still live afterwards and the pointer's
    destructor returns without any check. *)
Theorem release_performs_no_validation cfg this w :
  release this w = Returns ((ptr this, {| ptr := null |}), w) /\
  (forall o,
     checked_build cfg = true ->
     ptr this ≠ null ->
     heap w !! ptr this = Some o ->
     privateInstVerification o ≠ Some OPAQ_IPRIVATE_VERIFICATION ->
     reset cfg null this w = AssertionFailed /\
     exists p this',
       release this w = Returns ((p, this'), w) /\
       heap w !! p = Some o /\
       PrivateAutoPtr_dtor cfg this' w = Returns (this', w)).
Proof.
  split; [reflexivity|].
  intros o Hchecked Hnn Hlive Hbad.
  apply andb_true_iff in Hchecked as [_ Hassert].
  apply verification_ok_false_iff in Hbad.
  split.
  - eapply reset_corrupted; eassumption.
  - exists (ptr this), {| ptr := null |}.
    split; [reflexivity|]. split; [assumption | reflexivity].
Qed.

Lemma release_performs_no_validation_witness :
  let this := {| ptr := 1%N |} in
  let w := world_with 1%N damaged in
  checked_build debug_build = true /\
  ptr this ≠ null /\
  heap w !! ptr this = Some damaged /\
  privateInstVerification damaged ≠ Some OPAQ_IPRIVATE_VERIFICATION /\
  release this w = Returns ((1%N, {| ptr := null |}), w) /\
  reset debug_build null this w = AssertionFailed.
Proof.
  intros this w.
  assert (Hnn : ptr this ≠ null) by discriminate.
  assert (Hbad : privateInstVerification damaged
                 ≠ Some OPAQ_IPRIVATE_VERIFICATION) by discriminate.
  split; [reflexivity|]. split; [exact Hnn|]. split; [reflexivity|].
  split; [exact Hbad|].
  destruct (release_performs_no_validation debug_build this w)
    as [Hrelease Hunnoticed].
  split; [exact Hrelease|].
  exact (proj1 (Hunnoticed damaged eq_refl Hnn eq_refl Hbad)).
Defined.

(** ** Further behaviour, on concrete runs *)

(** With both [NDEBUG] and [_DEBUG] defined the verification code is
    stored ([OPAQ_DEBUG]) but [assert] is compiled out: [reset] deletes a
    damaged instance without complaint.  This build is neither checked nor
    unchecked. *)
Example ndebug_with_debug_skips_check :
  OPAQ_DEBUG ndebug_with_debug = true /\
  checked_build ndebug_with_debug = false /\
  unchecked_build ndebug_with_debug = false /\
  reset ndebug_with_debug null {| ptr := 1%N |} (world_with 1%N damaged)
    = Returns ({| ptr := null |}, {| heap := ∅; destroyed := [1%N] |}).
Proof. repeat split; vm_compute; reflexivity. Qed.

(** An unchecked build stores no verification code and checks nothing. *)
Example release_build_unchecked :
  unchecked_build release_build = true /\
  privateInstVerification (IPrivate_ctor release_build) = None /\
  reset release_build null {| ptr := 1%N |}
      (world_with 1%N (IPrivate_ctor release_build))
    = Returns ({| ptr := null |}, {| heap := ∅; destroyed := [1%N] |}).
Proof. repeat split; vm_compute; reflexivity. Qed.

(** [O] owns a fresh [X]; [O.reset(Y)] with a second fresh [Y]: one
    destructor has run, that of [X], and [O] holds [Y]. *)
Example reset_to_second_instance :
  match exec_all debug_build [New; Construct 0 1%N; New; Reset 0 2%N] initial with
  | Returns m =>
      destroyed (world m) = [1%N] /\
      get <$> owners m !! 0 = Some 2%N /\
      heap (world m) !! 2%N = Some (IPrivate_ctor debug_build)
  | _ => False
  end.
Proof. vm_compute. repeat split. Qed.

(** [O] owns [X]; after [p = O.release()] the end of [O]'s scope destroys
    nothing and [X] stays live. *)
Example release_then_scope_end :
  match exec_all debug_build [New; Construct 0 1%N; Release 0; ScopeEnd 0] initial with
  | Returns m =>
      destroyed (world m) = [] /\
      heap (world m) !! 1%N = Some (IPrivate_ctor debug_build) /\
      owners m !! 0 = None
  | _ => False
  end.
Proof. vm_compute. repeat split. Qed.

(** Using an owning pointer after its scope has ended is undefined, and
    so is resetting twice to the same instance. *)
Example reset_twice_to_same_instance :
  exec_all debug_build
    [New; Construct 0 null; Reset 0 1%N; Reset 0 1%N; ScopeEnd 0] initial
  = Undefined.
Proof. vm_compute. reflexivity. Qed.

(** [a.swap(a)] changes nothing. *)
Example swap_with_itself :
  let m := {| world := world_with 1%N (IPrivate_ctor debug_build);
              owners := {[ 0 := {| ptr := 1%N |} ]} |} in
  exec debug_build (Swap 0 0) m = Returns m.
Proof. vm_compute. reflexivity. Qed.

(** ** isValid *)

Lemma isValid_null this w :
  ptr this = null -> isValid this w = Returns (false, w).
Proof.
  intros H. apply is_nonnull_false in H. unfold isValid. rewrite H. reflexivity.
Qed.

Lemma isValid_live this w o :
  ptr this ≠ null -> heap w !! ptr this = Some o ->
  isValid this w = Returns (verification_ok o, w).
Proof.
  intros H Ho. apply is_nonnull_true in H.
  unfold isValid, load, reinterpret_cast, mbind, M_bind, mret, M_ret.
  rewrite H, Ho. reflexivity.
Qed.

Lemma isValid_dangling this w :
  ptr this ≠ null -> heap w !! ptr this = None ->
  isValid this w = Undefined.
Proof.
  intros H Ho. apply is_nonnull_true in H.
  unfold isValid, load, reinterpret_cast, mbind, M_bind.
  rewrite H, Ho. reflexivity.
Qed.

Lemma fresh_instance_passes_check cfg :
  assert_enabled cfg = true -> verification_ok (IPrivate_ctor cfg) = true.
Proof.
  unfold assert_enabled, verification_ok, privateInstVerification,
    IPrivate_ctor, OPAQ_DEBUG.
  intros ->. reflexivity.
Qed.

(** X1. [isValid] never changes the store.  For a null pointer it returns
    false without reading storage; for a pointer to a live instance it
    returns whether the verification code equals the constant; hence a
    returned [true] means: not null, live, and carrying the constant. *)
Theorem isValid_spec this w :
  (ptr this = null -> isValid this w = Returns (false, w)) /\
  (forall o, ptr this ≠ null -> heap w !! ptr this = Some o ->
     isValid this w = Returns (verification_ok o, w)) /\
  (forall b w',
     isValid this w = Returns (b, w') ->
     w' = w /\
     (b = true <->
      ptr this ≠ null /\
      exists o, heap w !! ptr this = Some o /\
                privateInstVerification o = Some OPAQ_IPRIVATE_VERIFICATION)).
Proof.
  pose proof (isValid_null this w) as Hnull.
  pose proof (isValid_live this w) as Hlive.
  split; [exact Hnull|]. split; [exact Hlive|].
  intros b w' Hrun.
  destruct (N.eq_dec (ptr this) null) as [Hn|Hn].
  - rewrite (Hnull Hn) in Hrun. inversion Hrun; subst.
    split; [reflexivity|]. split; [discriminate | tauto].
  - destruct (heap w !! ptr this) as [o|] eqn:Ho.
    + rewrite (Hlive o Hn eq_refl) in Hrun. inversion Hrun; subst.
      split; [reflexivity|]. rewrite verification_ok_iff. split.
      * intros Hok. split; [assumption|]. exists o. auto.
      * intros (_ & o' & Ho' & Hok). congruence.
    + rewrite isValid_dangling in Hrun by assumption. discriminate.
Qed.

Lemma isValid_spec_witness :
  isValid {| ptr := 1%N |} (world_with 1%N damaged)
    = Returns (false, world_with 1%N damaged) /\
  isValid {| ptr := 1%N |} (world_with 1%N (IPrivate_ctor debug_build))
    = Returns (true, world_with 1%N (IPrivate_ctor debug_build)).
Proof.
  split.
  - apply (proj1 (proj2 (isValid_spec {| ptr := 1%N |} (world_with 1%N damaged)))
             damaged); [discriminate | reflexivity].
  - apply (proj1 (proj2 (isValid_spec {| ptr := 1%N |}
                    (world_with 1%N (IPrivate_ctor debug_build))))
             (IPrivate_ctor debug_build)); [discriminate | reflexivity].
Defined.

(** X2. [isValid] tells what [reset] will do where [assert] is active: on
    a non-null pointer, [reset] returns (having deleted the held instance)
    if [isValid] returned true, and stops with an assertion failure if it
    returned false. *)
Theorem isValid_foretells_reset cfg p this w b w0 :
  assert_enabled cfg = true ->
  ptr this ≠ null ->
  isValid this w = Returns (b, w0) ->
  reset cfg p this w =
    if b then Returns ({| ptr := p |}, after_delete (ptr this) w)
    else AssertionFailed.
Proof.
  intros Hassert Hnn Hvalid.
  destruct (heap w !! ptr this) as [o|] eqn:Ho.
  - pose proof Hnn as Hnn'. apply is_nonnull_true in Hnn'.
    unfold isValid, load, reinterpret_cast, mbind, M_bind, mret, M_ret in Hvalid.
    rewrite Hnn', Ho in Hvalid. inversion Hvalid; subst.
    destruct (verification_ok o) eqn:Hok.
    + apply (reset_live cfg p this _ o); auto.
    + apply (reset_corrupted cfg p this _ o); auto.
  - apply is_nonnull_true in Hnn.
    unfold isValid, load, reinterpret_cast, mbind, M_bind in Hvalid.
    rewrite Hnn, Ho in Hvalid. discriminate.
Qed.

Lemma isValid_foretells_reset_witness :
  let this := {| ptr := 1%N |} in
  let w := world_with 1%N damaged in
  assert_enabled debug_build = true /\
  ptr this ≠ null /\
  isValid this w = Returns (false, w) /\
  reset debug_build 2%N this w = AssertionFailed.
Proof.
  intros this w.
  assert (Hnn : ptr this ≠ null) by discriminate.
  split; [reflexivity|]. split; [exact Hnn|]. split; [reflexivity|].
  exact (isValid_foretells_reset debug_build 2%N this w false w
           eq_refl Hnn eq_refl).
Defined.

(** ** What reset leaves alone, and two idioms *)

(** X3. A returning [reset] touches nothing but the instance that was
    held: every other address is live afterwards exactly if it was before,
    with the same object, and has been destroyed as often as before.  In
    particular the instance handed in, if it is not the held one, is not
    touched. *)
Theorem reset_touches_only_held cfg p this w this' w' y :
  reset cfg p this w = Returns (this', w') ->
  y ≠ ptr this ->
  heap w' !! y = heap w !! y /\ destructions y w' = destructions y w.
Proof.
  intros Hrun Hne.
  apply reset_returns_inv in Hrun as [_ [[_ ->]|(_ & -> & _)]].
  - auto.
  - split.
    + simpl. apply lookup_delete_ne. congruence.
    + apply destructions_after_delete_ne. congruence.
Qed.

Lemma reset_touches_only_held_witness :
  let w := {| heap := {[ 1%N := IPrivate_ctor debug_build;
                         2%N := IPrivate_ctor debug_build ]};
              destroyed := [] |} in
  exists this' w',
    reset debug_build 2%N {| ptr := 1%N |} w = Returns (this', w') /\
    heap w' !! 2%N = heap w !! 2%N /\
    destructions 2%N w' = destructions 2%N w.
Proof.
  intros w.
  eexists _, _. split; [vm_compute; reflexivity|].
  eapply (reset_touches_only_held debug_build 2%N {| ptr := 1%N |} w).
  - vm_compute. reflexivity.
  - discriminate.
Defined.

(** X4. Swapping with a temporary that owns [p] and letting the temporary
    go out of scope is [reset(p)]: same result, same store, same failures,
    in every build and every world. *)
Theorem swap_with_temporary_is_reset cfg p this w :
  swap_with_temporary cfg p this w = reset cfg p this w.
Proof.
  unfold swap_with_temporary, PrivateAutoPtr_ctor, swap, PrivateAutoPtr_dtor.
  unfold reset, reinterpret_cast, mbind, M_bind, mret, M_ret. simpl.
  destruct (is_nonnull (ptr this)); [|reflexivity].
  destruct (assert cfg _ w) as [[[] w1]| |]; [|reflexivity|reflexivity].
  destruct (delete_ (ptr this) w1) as [[[] w2]| |]; reflexivity.
Qed.

(** X5. [b.reset(a.release())] with [a] and [b] holding different
    instances moves [a]'s instance to [b]: [a] ends null, [b] holds what
    [a] held, that instance is neither deleted nor destroyed, and a
    non-null instance formerly held by [b] is deleted, destroyed once. *)
Theorem reset_from_release_moves cfg a b w :
  ptr a ≠ ptr b ->
  ptr b = null \/ sound cfg w (ptr b) ->
  exists w',
    reset_from_release cfg a b w
      = Returns (({| ptr := null |}, {| ptr := ptr a |}), w') /\
    heap w' !! ptr a = heap w !! ptr a /\
    destructions (ptr a) w' = destructions (ptr a) w /\
    (ptr b ≠ null ->
     heap w' !! ptr b = None /\
     destructions (ptr b) w' = S (destructions (ptr b) w)).
Proof.
  intros Hne Hheld.
  unfold reset_from_release, release, mbind, M_bind, mret, M_ret. simpl.
  rewrite reset_completes by assumption.
  eexists. split; [reflexivity|].
  destruct (is_nonnull (ptr b)) eqn:Hb.
  - split; [simpl; apply lookup_delete_ne; congruence|].
    split; [apply destructions_after_delete_ne; congruence|].
    intros _. split; [apply lookup_delete_eq | apply destructions_after_delete].
  - apply is_nonnull_false in Hb. repeat split; congruence.
Qed.

Lemma reset_from_release_moves_witness :
  let a := {| ptr := 1%N |} in
  let b := {| ptr := 2%N |} in
  let w := {| heap := {[ 1%N := IPrivate_ctor debug_build;
                         2%N := IPrivate_ctor debug_build ]};
              destroyed := [] |} in
  ptr a ≠ ptr b /\
  (ptr b = null \/ sound debug_build w (ptr b)) /\
  exists w',
    reset_from_release debug_build a b w
      = Returns (({| ptr := null |}, {| ptr := 1%N |}), w') /\
    heap w' !! 1%N = heap w !! 1%N.
Proof.
  intros a b w.
  assert (Hne : ptr a ≠ ptr b) by discriminate.
  assert (Hheld : ptr b = null \/ sound debug_build w (ptr b)).
  { right. exists (IPrivate_ctor debug_build). split; reflexivity. }
  split; [exact Hne|]. split; [exact Hheld|].
  destruct (reset_from_release_moves debug_build a b w Hne Hheld)
    as (w' & Hrun & Hlive & _).
  exists w'. split; [exact Hrun | exact Hlive].
Defined.

(** ** Client programs as a whole *)





Lemma as_constructed_initial cfg : as_constructed cfg (world initial).
Proof.
  intros a o Ha. simpl in Ha. rewrite lookup_empty in Ha. discriminate.
Qed.




(** X8. Only [reset] and the end of an owning pointer's scope ever run a
    destructor, and then exactly one, that of the non-null instance the
    pointer held: construction, [release], [swap], [get], [isNull],
    [isValid] and [new] leave the destruction log as it was. *)
Theorem only_reset_and_scope_end_destroy cfg c m m' :
  exec cfg c m = Returns m' ->
  destroyed (world m') = destroyed (world m) \/
  exists o this,
    ((exists p, c = Reset o p) \/ c = ScopeEnd o) /\
    owners m !! o = Some this /\
    ptr this ≠ null /\
    heap (world m') !! ptr this = None /\
    destroyed (world m') = ptr this :: destroyed (world m).
Proof.
  assert (Hreset : forall o p k,
            call m o (reset cfg p) k = Returns m' ->
            destroyed (world m') = destroyed (world m) \/
            exists this,
              owners m !! o = Some this /\ ptr this ≠ null /\
              heap (world m') !! ptr this = None /\
              destroyed (world m') = ptr this :: destroyed (world m)).
  { intros o p k. unfold call.
    destruct (owners m !! o) as [this|]; [|discriminate].
    destruct (reset cfg p this (world m)) as [[this' w']| |] eqn:Hrun;
      try discriminate.
    intros Hm. inversion Hm; subst. simpl.
    apply reset_returns_inv in Hrun as [_ [[_ ->]|(Hnn & -> & _)]].
    - left. reflexivity.
    - right. exists this. repeat split; try assumption.
      simpl. apply lookup_delete_eq. }
  assert (Hpure : forall (A : Type) o (f : PrivateAutoPtr -> M A) k,
            (forall this a w', f this (world m) = Returns (a, w') -> w' = world m) ->
            call m o f k = Returns m' ->
            destroyed (world m') = destroyed (world m)).
  { intros A o f k Hf. unfold call.
    destruct (owners m !! o) as [this|]; [|discriminate].
    destruct (f this (world m)) as [[a w']| |] eqn:Hrun; try discriminate.
    intros Hm. inversion Hm; subst. simpl.
    rewrite (Hf this a w' Hrun). reflexivity. }
  destruct c as [|o p|o p|o|a b|o|o|o|o]; simpl; intros Hm.
  - inversion Hm; subst. left. reflexivity.
  - inversion Hm; subst. left. reflexivity.
  - destruct (Hreset o p _ Hm) as [Hsame|(this & H)]; [left; assumption|].
    right. exists o, this. split; [left; eauto | exact H].
  - left. eapply Hpure; [|exact Hm]. intros this a w' H. inversion H. reflexivity.
  - destruct (owners m !! b); [|discriminate].
    left. eapply Hpure; [|exact Hm]. intros this a' w' H. inversion H. reflexivity.
  - left. eapply Hpure; [|exact Hm]. intros this a w' H. inversion H. reflexivity.
  - left. eapply Hpure; [|exact Hm]. intros this a w' H. inversion H. reflexivity.
  - destruct (OPAQ_DEBUG cfg); [|discriminate].
    left. eapply Hpure; [|exact Hm]. intros this a w' H.
    destruct (N.eq_dec (ptr this) null) as [Hn|Hn].
    + rewrite isValid_null in H by assumption. inversion H. reflexivity.
    + destruct (heap (world m) !! ptr this) as [obj|] eqn:Hobj.
      * rewrite (isValid_live _ _ obj) in H by assumption. inversion H. reflexivity.
      * rewrite isValid_dangling in H by assumption. discriminate.
  - destruct (Hreset o null _ Hm) as [Hsame|(this & H)]; [left; assumption|].
    right. exists o, this. split; [right; reflexivity | exact H].
Qed.

Lemma only_reset_and_scope_end_destroy_witness :
  let m := {| world := world_with 1%N (IPrivate_ctor debug_build);
              owners := {[ 0 := {| ptr := 1%N |} ]} |} in
  exists m',
    exec debug_build (ScopeEnd 0) m = Returns m' /\
    (destroyed (world m') = destroyed (world m) \/
     exists o this,
       ((exists p, ScopeEnd 0 = Reset o p) \/ ScopeEnd 0 = ScopeEnd o) /\
       owners m !! o = Some this /\
       ptr this ≠ null /\
       heap (world m') !! ptr this = None /\
       destroyed (world m') = ptr this :: destroyed (world m)).
Proof.
  intros m. eexists. split; [vm_compute; reflexivity|].
  apply (only_reset_and_scope_end_destroy debug_build (ScopeEnd 0) m).
  vm_compute. reflexivity.
Defined.

Lemma call_inv {A : Type} m o (f : PrivateAutoPtr -> M A) k m' :
  call m o f k = Returns m' ->
  exists this a,
    owners m !! o = Some this /\
    f this (world m) = Returns (a, world m') /\
    owners m' = k a (owners m).
Proof.
  unfold call.
  destruct (owners m !! o) as [this|]; [|discriminate].
  destruct (f this (world m)) as [[a w']| |] eqn:Hrun; try discriminate.
  intros Hm. inversion Hm; subst. simpl. eauto.
Qed.

Lemma reset_accounting cfg p this w this' w' :
  reset cfg p this w = Returns (this', w') ->
  size (heap w') + destruction_counter w' = size (heap w) + destruction_counter w.
Proof.
  intros Hrun.
  apply reset_returns_inv in Hrun as [_ [[_ ->]|(_ & -> & o & Ho & _)]];
    [reflexivity|].
  unfold destruction_counter. simpl.
  assert (Hsome : is_Some (heap w !! ptr this)) by eauto.
  rewrite map_size_delete_Some by assumption.
  pose proof (map_size_ne_0_lookup_2 (heap w) (ptr this) Hsome) as Hne.
  unfold addr in *. lia.
Qed.

Lemma exec_accounting cfg c m m' :
  exec cfg c m = Returns m' ->
  size (heap (world m')) + destruction_counter (world m')
  = size (heap (world m)) + destruction_counter (world m) + allocations [c].
Proof.
  destruct c as [|o p|o p|o|a b|o|o|o|o]; simpl; intros Hm.
  - inversion Hm; subst. unfold destruction_counter. simpl.
    rewrite map_size_insert_None by apply operator_new_fresh. lia.
  - inversion Hm; subst. simpl. lia.
  - apply call_inv in Hm as (this & a & _ & Hrun & _).
    apply reset_accounting in Hrun. lia.
  - apply call_inv in Hm as (this & a & _ & Hrun & _).
    inversion Hrun. lia.
  - destruct (owners m !! b); [|discriminate].
    apply call_inv in Hm as (this & a' & _ & Hrun & _).
    inversion Hrun. lia.
  - apply call_inv in Hm as (this & a & _ & Hrun & _). inversion Hrun. lia.
  - apply call_inv in Hm as (this & a & _ & Hrun & _). inversion Hrun. lia.
  - destruct (OPAQ_DEBUG cfg); [|discriminate].
    apply call_inv in Hm as (this & a & _ & Hrun & _).
    assert (world m' = world m) as ->; [|lia].
    destruct (N.eq_dec (ptr this) null) as [Hn|Hn].
    + rewrite isValid_null in Hrun by assumption. inversion Hrun. reflexivity.
    + destruct (heap (world m) !! ptr this) as [obj|] eqn:Hobj.
      * rewrite (isValid_live _ _ obj) in Hrun by assumption.
        inversion Hrun. reflexivity.
      * rewrite isValid_dangling in Hrun by assumption. discriminate.
  - apply call_inv in Hm as (this & a & _ & Hrun & _).
    apply reset_accounting in Hrun. lia.
Qed.

Lemma allocations_cons c cs :
  allocations (c :: cs) = allocations [c] + allocations cs.
Proof. destruct c; reflexivity. Qed.

(** X9. In every run of a client program that returns, the live
    instances and the destructor runs together number exactly the
    allocations: each allocated instance is either still live or has had
    its destructor run once, none has been destroyed twice, and nothing
    that the program did not allocate has been destroyed. *)
Theorem allocation_accounting cfg cs m :
  exec_all cfg cs initial = Returns m ->
  size (heap (world m)) + destruction_counter (world m) = allocations cs.
Proof.
  assert (Hgen : forall m0 m1,
            exec_all cfg cs m0 = Returns m1 ->
            size (heap (world m1)) + destruction_counter (world m1)
            = size (heap (world m0)) + destruction_counter (world m0)
              + allocations cs).
  { induction cs as [|c cs IH]; intros m0 m1 Hrun.
    - inversion Hrun; subst. simpl. lia.
    - simpl in Hrun.
      destruct (exec cfg c m0) as [m'| |] eqn:Hstep; try discriminate.
      apply exec_accounting in Hstep. apply IH in Hrun.
      rewrite allocations_cons. lia. }
  intros Hrun. apply Hgen in Hrun. rewrite Hrun. reflexivity.
Qed.

Lemma allocation_accounting_witness :
  let cs := [New; Construct 0 1%N; New; Reset 0 2%N; New] in
  exists m,
    exec_all debug_build cs initial = Returns m /\
    size (heap (world m)) + destruction_counter (world m) = 3.
Proof.
  intros cs. eexists. split; [vm_compute; reflexivity|].
  apply (allocation_accounting debug_build cs). vm_compute. reflexivity.
Defined.

(** ** Single ownership keeps programs defined *)

Lemma held_false m p :
  held m p = false ->
  forall o this, owners m !! o = Some this -> ptr this ≠ p.
Proof.
  unfold held. intros Hnone o this Ho Heq.
  assert (Hsome : existsb (fun kv : nat * PrivateAutoPtr => (ptr kv.2 =? p)%N)
                    (map_to_list (owners m)) = true).
  { apply existsb_exists. exists (o, this). split.
    - apply list_elem_of_In, elem_of_map_to_list. assumption.
    - simpl. apply N.eqb_eq. assumption. }
  congruence.
Qed.

Lemma declared_true m o :
  declared m o = true -> exists this, owners m !! o = Some this.
Proof.
  unfold declared. destruct (owners m !! o) as [this|]; [eauto | discriminate].
Qed.

Lemma declared_false m o : declared m o = false -> owners m !! o = None.
Proof.
  unfold declared. destruct (owners m !! o); [discriminate | reflexivity].
Qed.

Lemma unowned_true m p :
  unowned m p = true ->
  p = null \/
  (is_Some (heap (world m) !! p) /\
   forall o this, owners m !! o = Some this -> ptr this ≠ p).
Proof.
  unfold unowned, live. intros H. apply orb_true_iff in H as [H|H].
  - left. apply is_nonnull_false. apply negb_true_iff. assumption.
  - right. apply andb_true_iff in H as [Hlive Hheld].
    apply negb_true_iff in Hheld. split.
    + destruct (heap (world m) !! p); [eauto | discriminate].
    + apply held_false. assumption.
Qed.

Lemma well_owned_sound cfg m o this :
  well_owned cfg m ->
  owners m !! o = Some this ->
  ptr this = null \/ sound cfg (world m) (ptr this).
Proof.
  intros (Hinv & Hlive & _) Ho.
  destruct (Hlive o this Ho) as [Hn|[obj Hobj]]; [auto|].
  right. exists obj. split; [assumption|].
  rewrite (Hinv _ _ Hobj). apply fresh_instance_passes_check.
Qed.

(** Handing an unowned [p] to owner [o], whose former instance (if any)
    is deleted, keeps the state well owned. *)
Lemma well_owned_hand_over cfg m o p held_before :
  well_owned cfg m ->
  (forall this, owners m !! o = Some this -> ptr this = held_before) ->
  (owners m !! o = None -> held_before = null) ->
  p = null \/
    (is_Some (heap (world m) !! p) /\
     forall o' this, owners m !! o' = Some this -> ptr this ≠ p) ->
  well_owned cfg
    {| world := if is_nonnull held_before
                then after_delete held_before (world m) else world m;
       owners := <[o := {| ptr := p |}]> (owners m) |}.
Proof.
  intros (Hinv & Hlive & Huniq) Hold Hnew Hp.
  assert (Hkeep : forall x,
            x ≠ held_before \/ is_nonnull held_before = false ->
            is_Some (heap (world m) !! x) ->
            is_Some (heap (if is_nonnull held_before
                           then after_delete held_before (world m)
                           else world m) !! x)).
  { intros x Hx Hsome. destruct (is_nonnull held_before) eqn:Hnn; [|assumption].
    simpl. rewrite lookup_delete_ne; [assumption|].
    destruct Hx; congruence. }
  split; [|split]; simpl.
  - intros a obj Ha. destruct (is_nonnull held_before); [|eauto].
    simpl in Ha. apply lookup_delete_Some in Ha as [_ Ha]. eauto.
  - intros o' this Ho'. apply lookup_insert_Some in Ho' as [[<- <-]|[Hne Ho']].
    + simpl. destruct Hp as [->|[Hsome Hfree]]; [auto|]. right.
      apply Hkeep; [|assumption].
      destruct (owners m !! o) as [t|] eqn:Ho.
      * left. rewrite <- (Hold t eq_refl). intros ->. eapply Hfree; eauto.
      * right. rewrite (Hnew eq_refl). reflexivity.
    + destruct (Hlive o' this Ho') as [Hn|Hsome]; [auto|]. right.
      apply Hkeep; [|assumption].
      destruct (is_nonnull held_before) eqn:Hnn; [left|auto].
      intros Heq. apply Hne.
      destruct (owners m !! o) as [t|] eqn:Ho.
      * apply (Huniq o o' t this); auto.
        -- rewrite (Hold t eq_refl). congruence.
        -- rewrite (Hold t eq_refl). apply is_nonnull_true. assumption.
      * rewrite (Hnew eq_refl) in Hnn. discriminate.
  - intros o1 o2 t1 t2 H1 H2 Heq Hnn.
    apply lookup_insert_Some in H1 as [[<- <-]|[Hne1 H1]];
      apply lookup_insert_Some in H2 as [[<- <-]|[Hne2 H2]].
    + reflexivity.
    + simpl in *. destruct Hp as [->|[_ Hfree]]; [congruence|].
      exfalso. eapply Hfree; eauto.
    + simpl in *. destruct Hp as [->|[_ Hfree]]; [congruence|].
      exfalso. eapply Hfree; eauto.
    + eapply Huniq; eauto.
Qed.

Lemma well_owned_same_world cfg m os :
  well_owned cfg m ->
  (forall o this, os !! o = Some this ->
     ptr this = null \/ exists o' t, owners m !! o' = Some t /\ ptr t = ptr this) ->
  (forall o1 o2 t1 t2,
     os !! o1 = Some t1 -> os !! o2 = Some t2 ->
     ptr t1 = ptr t2 -> ptr t1 ≠ null -> o1 = o2) ->
  well_owned cfg {| world := world m; owners := os |}.
Proof.
  intros (Hinv & Hlive & _) Hfrom Huniq.
  split; [assumption|]. split; [|assumption]. simpl.
  intros o this Ho. destruct (Hfrom o this Ho) as [Hn|(o' & t & Ht & Heq)]; [auto|].
  rewrite <- Heq. eauto.
Qed.

Lemma well_owned_drop cfg w os o :
  well_owned cfg {| world := w; owners := os |} ->
  well_owned cfg {| world := w; owners := delete o os |}.
Proof.
  intros (Hinv & Hlive & Huniq). split; [assumption|]. simpl in *. split.
  - intros o' this Ho'. apply lookup_delete_Some in Ho' as [_ Ho']. eauto.
  - intros o1 o2 t1 t2 H1 H2.
    apply lookup_delete_Some in H1 as [_ H1].
    apply lookup_delete_Some in H2 as [_ H2]. eauto.
Qed.

Lemma well_owned_swap cfg m a b x y :
  well_owned cfg m ->
  owners m !! a = Some x ->
  owners m !! b = Some y ->
  well_owned cfg
    {| world := world m;
       owners := <[b := {| ptr := ptr x |}]>
                   (<[a := {| ptr := ptr y |}]> (owners m)) |}.
Proof.
  intros Hwell Ha Hb. pose proof Hwell as (_ & _ & Huniq).
  apply well_owned_same_world; [assumption| |].
  - intros o this Ho. right.
    apply lookup_insert_Some in Ho as [[<- <-]|[Hne Ho]]; [eauto|].
    apply lookup_insert_Some in Ho as [[<- <-]|[Hne' Ho]]; eauto.
  - intros o1 o2 t1 t2 H1 H2 Heq Hnn.
    apply lookup_insert_Some in H1 as [[<- <-]|[Hb1 H1]];
      [|apply lookup_insert_Some in H1 as [[<- <-]|[Ha1 H1]]];
      (apply lookup_insert_Some in H2 as [[<- <-]|[Hb2 H2]];
       [|apply lookup_insert_Some in H2 as [[<- <-]|[Ha2 H2]]]);
      simpl in *; try reflexivity.
    + apply (Huniq b a y x); auto; congruence.
    + exfalso. apply Ha2. apply (Huniq a o2 x t2); auto.
    + apply (Huniq a b x y); auto; congruence.
    + exfalso. apply Hb2. apply (Huniq b o2 y t2); auto.
    + exfalso. apply Ha1. symmetry. apply (Huniq o1 a t1 x); auto.
    + exfalso. apply Hb1. symmetry. apply (Huniq o1 b t1 y); auto.
    + apply (Huniq o1 o2 t1 t2); auto.
Qed.

Lemma well_owned_eta cfg m :
  well_owned cfg m ->
  well_owned cfg {| world := world m; owners := owners m |}.
Proof. destruct m. auto. Qed.

(** One permitted statement in a well-owned state returns, and the state
    it leaves is well owned. *)
Lemma permitted_step cfg c m :
  well_owned cfg m ->
  permitted cfg c m = true ->
  exists m', exec cfg c m = Returns m' /\ well_owned cfg m'.
Proof.
  intros Hwell Hperm.
  destruct c as [|o p|o p|o|a b|o|o|o|o]; simpl in Hperm.
  - eexists. split; [reflexivity|].
    destruct Hwell as (Hinv & Hlive & Huniq).
    destruct (operator_new_fresh (world m)) as [_ Hfree].
    split; [|split]; simpl.
    + intros x obj Hx. simpl in Hx.
      apply lookup_insert_Some in Hx as [[_ <-]|[_ Hx]]; eauto.
    + intros o this Ho. destruct (Hlive o this Ho) as [Hn|Hsome]; [auto|].
      right. apply lookup_insert_is_Some'. auto.
    + assumption.
  - apply andb_true_iff in Hperm as [Hfresh Hp].
    apply negb_true_iff, declared_false in Hfresh. apply unowned_true in Hp.
    eexists. split; [reflexivity|].
    apply (well_owned_hand_over cfg m o p null Hwell); [congruence|auto|assumption].
  - apply andb_true_iff in Hperm as [Hdecl Hp].
    apply declared_true in Hdecl as [this Ho]. apply unowned_true in Hp.
    simpl. unfold call. rewrite Ho.
    rewrite reset_completes by (eapply well_owned_sound; eassumption).
    eexists. split; [reflexivity|].
    apply (well_owned_hand_over cfg m o p (ptr this) Hwell);
      [congruence|congruence|assumption].
  - apply declared_true in Hperm as [this Ho].
    simpl. unfold call. rewrite Ho. simpl.
    eexists. split; [reflexivity|].
    pose proof Hwell as (_ & _ & Huniq).
    apply well_owned_same_world; [assumption| |].
    + intros o' t Ho'. apply lookup_insert_Some in Ho' as [[<- <-]|[_ Ho']]; eauto.
    + intros o1 o2 t1 t2 H1 H2 Heq Hnn.
      apply lookup_insert_Some in H1 as [[<- <-]|[_ H1]]; [contradiction|].
      apply lookup_insert_Some in H2 as [[<- <-]|[_ H2]];
        [simpl in Heq; congruence|].
      eapply Huniq; eauto.
  - apply andb_true_iff in Hperm as [Ha Hb].
    apply declared_true in Ha as [x Ha]. apply declared_true in Hb as [y Hb].
    simpl. rewrite Hb. unfold call. rewrite Ha. simpl.
    eexists. split; [reflexivity|]. apply well_owned_swap; assumption.
  - apply declared_true in Hperm as [this Ho].
    simpl. unfold call. rewrite Ho. simpl.
    eexists. split; [reflexivity|]. apply well_owned_eta. assumption.
  - apply declared_true in Hperm as [this Ho].
    simpl. unfold call. rewrite Ho. simpl.
    eexists. split; [reflexivity|]. apply well_owned_eta. assumption.
  - apply andb_true_iff in Hperm as [Hdebug Hdecl].
    apply declared_true in Hdecl as [this Ho].
    simpl. rewrite Hdebug. unfold call. rewrite Ho.
    assert (Hvalid : exists b, isValid this (world m) = Returns (b, world m)).
    { destruct Hwell as (_ & Hlive & _).
      destruct (N.eq_dec (ptr this) null) as [Hn|Hn].
      - rewrite isValid_null by assumption. eauto.
      - destruct (Hlive o this Ho) as [?|[obj Hobj]]; [contradiction|].
        rewrite (isValid_live _ _ obj) by assumption. eauto. }
    destruct Hvalid as [b ->].
    eexists. split; [reflexivity|]. apply well_owned_eta. assumption.
  - apply declared_true in Hperm as [this Ho].
    simpl. unfold call. rewrite Ho. unfold PrivateAutoPtr_dtor.
    rewrite reset_completes by (eapply well_owned_sound; eassumption).
    eexists. split; [reflexivity|].
    rewrite <- (delete_insert_eq (owners m) o {| ptr := null |}).
    apply well_owned_drop.
    apply (well_owned_hand_over cfg m o null (ptr this) Hwell);
      [congruence|congruence|auto].
Qed.

Lemma well_owned_initial cfg : well_owned cfg initial.
Proof.
  split; [apply as_constructed_initial|]. split; simpl.
  - intros o this Ho. rewrite lookup_empty in Ho. discriminate.
  - intros o1 o2 t1 t2 H1. rewrite lookup_empty in H1. discriminate.
Qed.





Lemma disciplined_run_well_owned cfg cs :
  forall m m',
    well_owned cfg m ->
    disciplined cfg cs m = true ->
    exec_all cfg cs m = Returns m' ->
    well_owned cfg m'.
Proof.
  induction cs as [|c cs IH]; intros m m' Hwell Hdisc Hrun.
  - inversion Hrun; subst. assumption.
  - simpl in Hdisc, Hrun. apply andb_true_iff in Hdisc as [Hperm Hrest].
    destruct (permitted_step cfg c m Hwell Hperm) as (m1 & Hstep & Hwell1).
    rewrite Hstep in *. eapply IH; eassumption.
Qed.

(** X11. Under single ownership dereferencing is safe: in every state a
    disciplined program reaches, [operator*] on an owning pointer that is
    not null returns the held instance, which is as [IPrivate()] left it,
    and changes nothing; [operator->], [get], [getConst] and the
    conversion to [T*] all give its address. *)
Theorem dereference_safe_under_single_ownership cfg cs m o this :
  disciplined cfg cs initial = true ->
  exec_all cfg cs initial = Returns m ->
  owners m !! o = Some this ->
  isNull this = false ->
  operator_star this (world m) = Returns (IPrivate_ctor cfg, world m) /\
  heap (world m) !! operator_arrow this = Some (IPrivate_ctor cfg) /\
  operator_arrow this = get this /\
  getConst this = get this /\
  operator_T_ptr this = get this.
Proof.
  intros Hdisc Hrun Ho Hnn.
  destruct (disciplined_run_well_owned cfg cs initial m
              (well_owned_initial cfg) Hdisc Hrun) as (Hinv & Hlive & _).
  unfold isNull in Hnn. apply negb_false_iff, is_nonnull_true in Hnn.
  destruct (Hlive o this Ho) as [?|[obj Hobj]]; [contradiction|].
  pose proof (Hinv _ _ Hobj) as ->.
  unfold operator_star, operator_arrow, load. rewrite Hobj. repeat split.
Qed.

Lemma dereference_safe_under_single_ownership_witness :
  let cs := [New; Construct 0 1%N; New; Reset 0 2%N] in
  disciplined debug_build cs initial = true /\
  exists m,
    exec_all debug_build cs initial = Returns m /\
    owners m !! 0 = Some {| ptr := 2%N |} /\
    isNull {| ptr := 2%N |} = false /\
    operator_star {| ptr := 2%N |} (world m)
      = Returns (IPrivate_ctor debug_build, world m).
Proof.
  intros cs. split; [vm_compute; reflexivity|].
  eexists. split; [vm_compute; reflexivity|].
  split; [vm_compute; reflexivity|]. split; [reflexivity|].
  eapply (dereference_safe_under_single_ownership debug_build cs _ 0);
    [vm_compute; reflexivity | vm_compute; reflexivity
    | vm_compute; reflexivity | reflexivity].
Defined.

(** ** Builds with NDEBUG *)

(** X12. Wherever [assert] is active the accessor it calls exists
    ([OPAQ_DEBUG] holds), so [reset] is well formed in all four
    configurations.  With [NDEBUG] defined, whether or not [_DEBUG] keeps
    the verification code in the object, [reset] checks nothing: it never
    stops with an assertion failure and deletes whatever live object the
    pointer holds, a damaged or foreign one included. *)
Theorem reset_under_NDEBUG cfg :
  (assert_enabled cfg = true -> OPAQ_DEBUG cfg = true) /\
  (NDEBUG cfg = true ->
   forall p this w,
     reset cfg p this w ≠ AssertionFailed /\
     forall o, ptr this ≠ null -> heap w !! ptr this = Some o ->
       reset cfg p this w = Returns ({| ptr := p |}, after_delete (ptr this) w)).
Proof.
  split.
  - unfold assert_enabled, OPAQ_DEBUG. intros ->. reflexivity.
  - intros Hndebug p this w.
    assert (Hoff : assert_enabled cfg = false).
    { unfold assert_enabled. rewrite Hndebug. reflexivity. }
    assert (Hlive : forall o, ptr this ≠ null -> heap w !! ptr this = Some o ->
              reset cfg p this w
              = Returns ({| ptr := p |}, after_delete (ptr this) w)).
    { intros o Hnn Ho. apply (reset_live cfg p this w o); [assumption..|].
      rewrite Hoff. discriminate. }
    split; [|exact Hlive].
    destruct (N.eq_dec (ptr this) null) as [Hn|Hn].
    + rewrite reset_null by assumption. discriminate.
    + destruct (heap w !! ptr this) as [o|] eqn:Ho.
      * rewrite (Hlive o Hn eq_refl). discriminate.
      * rewrite reset_dangling by assumption. discriminate.
Qed.

Lemma reset_under_NDEBUG_witness :
  NDEBUG ndebug_with_debug = true /\
  OPAQ_DEBUG ndebug_with_debug = true /\
  reset ndebug_with_debug null {| ptr := 1%N |} (world_with 1%N damaged)
    = Returns ({| ptr := null |},
               after_delete 1%N (world_with 1%N damaged)).
Proof.
  split; [reflexivity|]. split; [reflexivity|].
  destruct (reset_under_NDEBUG ndebug_with_debug) as [_ Hunchecked].
  destruct (Hunchecked eq_refl null {| ptr := 1%N |} (world_with 1%N damaged))
    as [_ Hdeletes].
  apply (Hdeletes damaged); [discriminate | reflexivity].
Defined.

End opaq.
